(** * Siv3D aligned memory: a shallow embedding of [AlignedMemory.hpp]

    The header wraps the platform's aligned allocator ([_aligned_malloc] /
    [_aligned_free] on Windows, [posix_memalign] / [free] elsewhere) and
    builds placement construction, destruction and smart-pointer factories
    on top of it.  Addresses and [size_t] values are integers; the allocator
    state is the set of live blocks together with a trace of the allocator
    and object-lifetime events, threaded explicitly through every call. *)

From stdpp Require Import base decidable gmap sets list.
From Stdlib Require Import ZArith Lia.

Local Open Scope Z_scope.

(** ** Platform and types *)

(** The two arms of [# if defined(SIV3D_TARGET_WINDOWS)]. *)
Inductive Target := Windows | Posix.

(** What the header takes from its environment: the build target, the width
    of [size_t], the macro [SIV3D_ALLOCATOR_MIN_ALIGNMENT] (defined outside
    this header), the decision of the operating system's allocator (given
    the live blocks, a size and an alignment it yields a block or fails) and
    the indeterminate value an uninitialised automatic pointer holds. *)
Class Env := {
  target : Target;
  size_bits : Z;
  SIV3D_ALLOCATOR_MIN_ALIGNMENT : Z;
  os_alloc : gset Z → Z → Z → option Z;
  indeterminate : Z
}.

(** Exceptions that can travel through the header. *)
Inductive Exn := std_bad_alloc | user_exn (code : Z).

(** A C++ object type as the templates see it: [sizeof], [alignof] and the
    constructor selected by the forwarded arguments, which either completes
    ([None]) or throws ([Some e]). *)
Record CType (Args : Type) := {
  sizeof : Z;
  alignof : Z;
  ctor : Args → option Exn
}.
Arguments sizeof {Args} _.
Arguments alignof {Args} _.
Arguments ctor {Args} _ _.

(** ** Machine state *)

Inductive Event :=
| EvAlloc (size alignment : Z) (result : option Z)
| EvFree (p : Z)
| EvCtor (p : Z)
| EvDtor (p : Z).

Record State := { live : gset Z; trace : list Event }.

Definition log (ev : Event) (s : State) : State :=
  {| live := live s; trace := trace s ++ [ev] |}.

(** A call returns normally, leaves by an exception, or has undefined
    behaviour. *)
Inductive Outcome (A : Type) :=
| Ok (a : A)
| Throw (e : Exn)
| Undefined.
Arguments Ok {A} a.
Arguments Throw {A} e.
Arguments Undefined {A}.

Definition M (A : Type) : Type := State → Outcome A * State.

Definition ret {A} (a : A) : M A := fun s => (Ok a, s).

Definition throw {A} (e : Exn) : M A := fun s => (Throw e, s).

Definition bind {A B} (m : M A) (k : A → M B) : M B := fun s =>
  match m s with
  | (Ok a, s') => k a s'
  | (Throw e, s') => (Throw e, s')
  | (Undefined, s') => (Undefined, s')
  end.

(** [try { m } catch (...) { h }]: the handler runs in the state the body
    left behind; [throw;] inside it is [throw e]. *)
Definition try_catch {A} (m : M A) (h : Exn → M A) : M A := fun s =>
  match m s with
  | (Throw e, s') => h e s'
  | r => r
  end.

#[export] Instance M_ret : MRet M := @ret.
#[export] Instance M_bind : MBind M := λ A B k m, bind m k.

(** ** Platform primitives *)

(** Arithmetic on [size_t] wraps modulo [2 ^ size_bits]. *)
Definition wrap `{Env} (x : Z) : Z := x mod 2 ^ size_bits.

(** [_aligned_malloc(size, alignment)]: the block, or [NULL] on failure. *)
Definition _aligned_malloc `{Env} (size alignment : Z) : M Z := fun s =>
  match os_alloc (live s) size alignment with
  | Some p =>
      (Ok p, {| live := {[p]} ∪ live s;
                trace := trace s ++ [EvAlloc size alignment (Some p)] |})
  | None => (Ok 0, log (EvAlloc size alignment None) s)
  end.

Definition ENOMEM : Z := 12.

(** [posix_memalign(&memptr, alignment, size)]: the status and the value of
    [memptr] afterwards.  On success the block is stored and 0 returned; on
    failure an error number is returned and [memptr] is left as it was. *)
Definition posix_memalign `{Env} (memptr alignment size : Z) : M (Z * Z) := fun s =>
  match os_alloc (live s) size alignment with
  | Some p =>
      (Ok (0, p), {| live := {[p]} ∪ live s;
                     trace := trace s ++ [EvAlloc size alignment (Some p)] |})
  | None => (Ok (ENOMEM, memptr), log (EvAlloc size alignment None) s)
  end.

(** [free(p)] and [_aligned_free(p)]: no action on [NULL]; a live block is
    released; anything else is undefined. *)
Definition release (p : Z) : M unit := fun s =>
  if p =? 0 then (Ok tt, s)
  else if decide (p ∈ live s)
       then (Ok tt, {| live := live s ∖ {[p]}; trace := trace s ++ [EvFree p] |})
       else (Undefined, s).

Definition _aligned_free (p : Z) : M unit := release p.
Definition free (p : Z) : M unit := release p.

(** The built-in [%] on unsigned operands: undefined for a zero divisor. *)
Definition urem (x y : Z) : option Z :=
  if y =? 0 then None else Some (x mod y).

(** ** The header *)

Section Header.
Context {E : Env} {Args : Type}.

(** [AlignedMalloc<Type, Alignment>(n)] *)
Definition AlignedMalloc (T : CType Args) (Alignment n : Z) : M Z :=
  match target with
  | Windows => _aligned_malloc (wrap (sizeof T * n)) Alignment
  | Posix =>
      r ← posix_memalign indeterminate Alignment (wrap (sizeof T * n));
      mret (snd r)
  end.

(** [AlignedFree(p)] *)
Definition AlignedFree (p : Z) : M unit :=
  match target with
  | Windows => _aligned_free p
  | Posix => free p
  end.

(** [HasAlignment<Type>::value] *)
Definition HasAlignment (T : CType Args) : bool :=
  alignof T >? SIV3D_ALLOCATOR_MIN_ALIGNMENT.

(** [::new (p) Type(args...)]: the storage must be a live block. *)
Definition placement_new (T : CType Args) (p : Z) (args : Args) : M unit := fun s =>
  if decide (p ∈ live s) then
    match ctor T args with
    | None => (Ok tt, log (EvCtor p) s)
    | Some e => (Throw e, log (EvCtor p) s)
    end
  else (Undefined, s).

(** [p->~Type()] *)
Definition destroy (T : CType Args) (p : Z) : M unit := fun s =>
  (Ok tt, log (EvDtor p) s).

(** [AlignedNew<Type>(args...)] *)
Definition AlignedNew (T : CType Args) (args : Args) : M Z :=
  p ← AlignedMalloc T (alignof T) 1;
  if p =? 0 then throw std_bad_alloc
  else
    try_catch (placement_new T p args)
              (λ e, AlignedFree p;; throw e);;
    mret p.

(** [AlignedDelete(p)] *)
Definition AlignedDelete (T : CType Args) (p : Z) : M unit :=
  if p =? 0 then mret tt
  else destroy T p;; AlignedFree p.
End Header.

(** [IsAligned(p, alignment)] *)
Definition IsAligned (p alignment : Z) : option bool :=
  match urem p alignment with
  | Some r => Some (r =? 0)
  | None => None
  end.

(** ** Owning handles and the generic factories *)

Inductive Ownership := Unique | Shared.

Inductive Deleter := default_delete | AlignedDeleter.

(** A [std::unique_ptr] or [std::shared_ptr]: the pointer it owns and the
    deleter it runs on final release. *)
Record Handle := { owner : Ownership; get : Z; deleter : Deleter }.

(** The two factories of the standard library that the header forwards to;
    they are defined outside the repository. *)
Class Std := {
  std_make_unique : ∀ {Args : Type}, CType Args → Args → M Handle;
  std_make_shared : ∀ {Args : Type}, CType Args → Args → M Handle
}.

Section Factories.
Context {E : Env} {L : Std} {Args : Type}.

(** [AlignedDeleter<Type>::operator()] *)
Definition AlignedDeleter_call (T : CType Args) (p : Z) : M unit :=
  AlignedDelete T p.

(** [AlignedUnique<Type>(args...)] *)
Definition AlignedUnique (T : CType Args) (args : Args) : M Handle :=
  p ← AlignedNew T args;
  mret {| owner := Unique; get := p; deleter := AlignedDeleter |}.

(** [AlignedShared<Type>(args...)] *)
Definition AlignedShared (T : CType Args) (args : Args) : M Handle :=
  p ← AlignedNew T args;
  mret {| owner := Shared; get := p; deleter := AlignedDeleter |}.

(** A function template guarded by [std::enable_if_t<cond>* = nullptr],
    with the computation its body performs. *)
Record Overload := { enable_if : bool; body : M Handle }.

(** The two templates named [MakeUnique]. *)
Definition MakeUnique_overloads (T : CType Args) (args : Args) : list Overload :=
  [ {| enable_if := negb (HasAlignment T);
       body := std_make_unique T args |};
    {| enable_if := HasAlignment T;
       body := AlignedUnique T args |} ].

(** The two templates named [MakeShared]; the aligned one builds the
    [std::shared_ptr] from [AlignedNew] and an [AlignedDeleter] in place. *)
Definition MakeShared_overloads (T : CType Args) (args : Args) : list Overload :=
  [ {| enable_if := negb (HasAlignment T);
       body := std_make_shared T args |};
    {| enable_if := HasAlignment T;
       body := p ← AlignedNew T args;
               mret {| owner := Shared; get := p;
                       deleter := AlignedDeleter |} |} ].

(** Substitution failure removes an overload from the candidate set. *)
Definition viable (ovs : list Overload) : list Overload :=
  List.filter enable_if ovs.

(** Overload resolution succeeds when exactly one candidate is left; the
    call then runs that candidate's body. *)
Definition resolve (ovs : list Overload) : option (M Handle) :=
  match viable ovs with
  | [o] => Some (body o)
  | _ => None
  end.

(** [MakeUnique<Type>(args...)] *)
Definition MakeUnique (T : CType Args) (args : Args) : option (M Handle) :=
  resolve (MakeUnique_overloads T args).

(** [MakeShared<Type>(args...)] *)
Definition MakeShared (T : CType Args) (args : Args) : option (M Handle) :=
  resolve (MakeShared_overloads T args).

(** The aligned path in the words of the specification: the object comes
    from [AlignedNew], the handle releases it with [AlignedDeleter], and a
    failure of [AlignedNew] reaches the caller as it is. *)
Definition aligned_path (o : Ownership) (T : CType Args) (args : Args)
  : M Handle := fun s =>
  match AlignedNew T args s with
  | (Ok p, s') =>
      (Ok {| owner := o; get := p; deleter := AlignedDeleter |}, s')
  | (Throw e, s') => (Throw e, s')
  | (Undefined, s') => (Undefined, s')
  end.
End Factories.

(** ** Observations on traces *)

Definition is_ctor (ev : Event) : bool :=
  match ev with EvCtor _ => true | _ => false end.

Definition ctor_calls (tr : list Event) : list Event := List.filter is_ctor tr.

(** ** A concrete platform

    An allocator that serves requests of at most 1024 bytes at the first
    multiple of the alignment above every live block, and fails otherwise. *)

Definition arena_alloc (L : gset Z) (size alignment : Z) : option Z :=
  if (0 <? alignment) && (size <=? 1024)
  then Some (alignment * (1 + set_fold Z.max 0 L))
  else None.

Definition win64 : Env :=
  {| target := Windows; size_bits := 64; SIV3D_ALLOCATOR_MIN_ALIGNMENT := 16;
     os_alloc := arena_alloc; indeterminate := 3735928559 |}.

Definition posix64 : Env :=
  {| target := Posix; size_bits := 64; SIV3D_ALLOCATOR_MIN_ALIGNMENT := 16;
     os_alloc := arena_alloc; indeterminate := 3735928559 |}.

(** A 64-byte SIMD block whose constructor throws on a nonzero argument. *)
Definition Block64 : CType Z :=
  {| sizeof := 64; alignof := 64;
     ctor := λ c, if c =? 0 then None else Some (user_exn c) |}.

(** A type too large for the arena. *)
Definition Page : CType Z :=
  {| sizeof := 4096; alignof := 64; ctor := λ _, None |}.

Definition Word32 : CType Z :=
  {| sizeof := 4; alignof := 4; ctor := λ _, None |}.

Definition empty_state : State := {| live := ∅; trace := [] |}.

(** The state after one [Block64] was allocated and constructed at 64. *)
Definition one_block_state : State :=
  {| live := {[64]}; trace := [EvAlloc 64 64 (Some 64); EvCtor 64] |}.

(** A stand-in standard library for concrete runs: [operator new] is served
    by the platform allocator at its minimum alignment, the object is
    constructed in the block, and the handle carries [default_delete]. *)
Definition plain_new {E : Env} {Args : Type} (o : Ownership)
    (T : CType Args) (args : Args) : M Handle :=
  p ← _aligned_malloc (wrap (sizeof T)) SIV3D_ALLOCATOR_MIN_ALIGNMENT;
  if p =? 0 then throw std_bad_alloc
  else
    try_catch (placement_new T p args) (λ e, release p;; throw e);;
    mret {| owner := o; get := p; deleter := default_delete |}.

Definition plain_std (E : Env) : Std :=
  {| std_make_unique := λ Args, plain_new Unique;
     std_make_shared := λ Args, plain_new Shared |}.

(** The contract of the platform primitive: a block handed out on success
    lies on the requested boundary. *)
Definition aligned_on_success (E : Env) : Prop :=
  ∀ L size alignment p,
    os_alloc L size alignment = Some p → p mod alignment = 0.

(** The other half of that contract: a block handed out on success is not
    null and is not one of the blocks already live. *)
Definition fresh_on_success (E : Env) : Prop :=
  ∀ L size alignment p,
    os_alloc L size alignment = Some p → p ≠ 0 ∧ p ∉ L.

(** The requests made to the platform allocator, in order. *)
Definition is_alloc (ev : Event) : bool :=
  match ev with EvAlloc _ _ _ => true | _ => false end.

Definition alloc_requests (tr : list Event) : list Event :=
  List.filter is_alloc tr.

(** * Properties *)

Ltac run_monad :=
  unfold mbind, M_bind, bind, mret, M_ret, ret, throw, try_catch, log; simpl.

(** ** AlignedMalloc *)

Section AlignedMallocFacts.
Context {E : Env} {Args : Type}.
Implicit Types (T : CType Args) (s : State).

Lemma AlignedMalloc_success T A n s p :
  os_alloc (live s) (wrap (sizeof T * n)) A = Some p →
  AlignedMalloc T A n s =
    (Ok p, {| live := {[p]} ∪ live s;
              trace := trace s ++ [EvAlloc (wrap (sizeof T * n)) A (Some p)] |}).
Proof.
  intros Hos. unfold AlignedMalloc.
  destruct target; [unfold _aligned_malloc | run_monad; unfold posix_memalign];
    rewrite Hos; reflexivity.
Qed.

Lemma AlignedMalloc_failure_windows T A n s :
  target = Windows →
  os_alloc (live s) (wrap (sizeof T * n)) A = None →
  AlignedMalloc T A n s =
    (Ok 0, log (EvAlloc (wrap (sizeof T * n)) A None) s).
Proof.
  intros Ht Hos. unfold AlignedMalloc, _aligned_malloc.
  rewrite Ht, Hos. reflexivity.
Qed.

Lemma AlignedMalloc_failure_posix T A n s :
  target = Posix →
  os_alloc (live s) (wrap (sizeof T * n)) A = None →
  AlignedMalloc T A n s =
    (Ok indeterminate, log (EvAlloc (wrap (sizeof T * n)) A None) s).
Proof.
  intros Ht Hos. unfold AlignedMalloc. rewrite Ht.
  run_monad. unfold posix_memalign. rewrite Hos. reflexivity.
Qed.

(** The allocation wrapper never leaves by an exception and never has
    undefined behaviour of its own. *)
Lemma AlignedMalloc_returns T A n s :
  ∃ p s', AlignedMalloc T A n s = (Ok p, s').
Proof.
  destruct (os_alloc (live s) (wrap (sizeof T * n)) A) as [p|] eqn:Hos.
  - eauto using AlignedMalloc_success.
  - destruct target eqn:Ht.
    + eauto using AlignedMalloc_failure_windows.
    + eauto using AlignedMalloc_failure_posix.
Qed.

Lemma AlignedMalloc_trace T A n s :
  trace (AlignedMalloc T A n s).2 =
    trace s ++ [EvAlloc (wrap (sizeof T * n)) A
                  (os_alloc (live s) (wrap (sizeof T * n)) A)].
Proof.
  destruct (os_alloc (live s) (wrap (sizeof T * n)) A) as [p|] eqn:Hos.
  - by rewrite (AlignedMalloc_success _ _ _ _ _ Hos).
  - destruct target eqn:Ht.
    + by rewrite (AlignedMalloc_failure_windows _ _ _ _ Ht Hos).
    + by rewrite (AlignedMalloc_failure_posix _ _ _ _ Ht Hos).
Qed.

(** C8: the size handed to the platform primitive is [sizeof(Type) * n]
    computed in [size_t] arithmetic, that is, the product reduced modulo
    [2 ^ size_bits]; whenever the product fits in the machine word the
    request is the mathematical product itself. *)
Theorem AlignedMalloc_request_size T A n s :
  trace (AlignedMalloc T A n s).2 =
    trace s ++ [EvAlloc ((sizeof T * n) mod 2 ^ size_bits) A
                  (os_alloc (live s) ((sizeof T * n) mod 2 ^ size_bits) A)] ∧
  (0 ≤ sizeof T * n < 2 ^ size_bits →
   trace (AlignedMalloc T A n s).2 =
     trace s ++ [EvAlloc (sizeof T * n) A
                   (os_alloc (live s) (sizeof T * n) A)]).
Proof.
  split.
  - apply AlignedMalloc_trace.
  - intros Hfit. rewrite AlignedMalloc_trace.
    unfold wrap. rewrite Z.mod_small by exact Hfit. reflexivity.
Qed.
End AlignedMallocFacts.

(** ** AlignedFree, AlignedNew and AlignedDelete *)

Section LifetimeFacts.
Context {E : Env} {Args : Type}.
Implicit Types (T : CType Args) (s : State).

Lemma AlignedFree_release p : AlignedFree p = release p.
Proof. unfold AlignedFree, _aligned_free, free. by destruct target. Qed.

Lemma release_null s : release 0 s = (Ok tt, s).
Proof. reflexivity. Qed.

Lemma release_live p s :
  p ≠ 0 → p ∈ live s →
  release p s =
    (Ok tt, {| live := live s ∖ {[p]}; trace := trace s ++ [EvFree p] |}).
Proof.
  intros Hp Hin. unfold release.
  destruct (Z.eqb_spec p 0) as [|_]; [done|].
  by rewrite decide_True.
Qed.

Lemma union_singleton_difference (p : Z) (L : gset Z) :
  p ∉ L → ({[p]} ∪ L) ∖ {[p]} = L.
Proof.
  intros Hfresh. apply set_eq. intros x.
  rewrite elem_of_difference, elem_of_union, elem_of_singleton.
  split; [tauto|]. intros Hx. split; [tauto|]. by intros ->.
Qed.

(** C2: when the constructor run by [AlignedNew] throws, the block that
    was just allocated is released exactly once, after the constructor
    call, and the same exception reaches the caller; the set of live
    blocks is what it was before the call. *)
Theorem AlignedNew_ctor_failure_frees_block T args s p e :
  os_alloc (live s) (wrap (sizeof T * 1)) (alignof T) = Some p →
  p ≠ 0 →
  p ∉ live s →
  ctor T args = Some e →
  AlignedNew T args s =
    (Throw e,
     {| live := live s;
        trace := trace s ++
          [EvAlloc (wrap (sizeof T * 1)) (alignof T) (Some p);
           EvCtor p; EvFree p] |}).
Proof.
  intros Hos Hp Hfresh Hctor. unfold AlignedNew. run_monad.
  rewrite (AlignedMalloc_success _ _ _ _ _ Hos).
  destruct (Z.eqb_spec p 0) as [|_]; [done|].
  unfold placement_new. simpl.
  rewrite decide_True by set_solver. rewrite Hctor.
  rewrite AlignedFree_release. unfold log. simpl.
  rewrite release_live by (done || set_solver). simpl.
  f_equal. f_equal.
  - by apply union_singleton_difference.
  - by rewrite <- !app_assoc.
Qed.

(** C3: when the allocation inside [AlignedNew] yields the null pointer,
    [AlignedNew] throws [std::bad_alloc] and no constructor is run;
    and a pointer that [AlignedNew] returns normally is not null. *)
Theorem AlignedNew_null_allocation_bad_alloc T args s :
  (∀ s1, AlignedMalloc T (alignof T) 1 s = (Ok 0, s1) →
         AlignedNew T args s = (Throw std_bad_alloc, s1) ∧
         ctor_calls (trace s1) = ctor_calls (trace s)) ∧
  (∀ p s', AlignedNew T args s = (Ok p, s') → p ≠ 0).
Proof.
  split.
  - intros s1 Hm. split.
    + unfold AlignedNew. run_monad. by rewrite Hm.
    + pose proof (AlignedMalloc_trace T (alignof T) 1 s) as Htr.
      rewrite Hm in Htr. simpl in Htr. rewrite Htr.
      unfold ctor_calls. rewrite List.filter_app. simpl.
      by rewrite app_nil_r.
  - intros p s'. unfold AlignedNew. run_monad.
    destruct (AlignedMalloc_returns T (alignof T) 1 s) as (q & s1 & ->).
    destruct (Z.eqb_spec q 0) as [|Hq]; [done|].
    destruct (placement_new T q args s1) as [[[]|e|] s2]; try done.
    + intros [= <- _]. exact Hq.
    + by destruct (AlignedFree q s2) as [[[]| |] s3].
Qed.

(** C7: [AlignedFree] and [AlignedDelete] leave the whole state as it is
    when given the null pointer (no destructor call, no release, normal
    return); on a live non-null block [AlignedDelete] runs the destructor
    and then releases the block, in that order. *)
Theorem AlignedFree_AlignedDelete_null_noop T s :
  AlignedFree 0 s = (Ok tt, s) ∧
  AlignedDelete T 0 s = (Ok tt, s) ∧
  (∀ p, p ≠ 0 → p ∈ live s →
        AlignedDelete T p s =
          (Ok tt, {| live := live s ∖ {[p]};
                     trace := trace s ++ [EvDtor p; EvFree p] |})).
Proof.
  split; [|split].
  - by rewrite AlignedFree_release.
  - reflexivity.
  - intros p Hp Hin. unfold AlignedDelete.
    destruct (Z.eqb_spec p 0) as [|_]; [done|].
    run_monad. unfold destroy. rewrite AlignedFree_release.
    unfold log. rewrite release_live by done. simpl.
    by rewrite <- app_assoc.
Qed.

(** C4: [HasAlignment<Type>::value] holds exactly when [alignof(Type)] is
    strictly greater than [SIV3D_ALLOCATOR_MIN_ALIGNMENT]. *)
Theorem HasAlignment_iff T :
  HasAlignment T = true ↔ alignof T > SIV3D_ALLOCATOR_MIN_ALIGNMENT.
Proof. unfold HasAlignment. rewrite Z.gtb_ltb, Z.ltb_lt. lia. Qed.
End LifetimeFacts.

(** ** The generic factories *)

Section DispatchFacts.
Context {E : Env} {L : Std} {Args : Type}.
Implicit Types (T : CType Args) (args : Args).

Lemma AlignedUnique_aligned_path T args s :
  AlignedUnique T args s = aligned_path Unique T args s.
Proof.
  unfold AlignedUnique, aligned_path. run_monad.
  by destruct (AlignedNew T args s) as [[p|e|] s'].
Qed.

(** C5: [MakeUnique] and [MakeShared] are selected by
    [HasAlignment<Type>::value].  For every type exactly one overload of
    each factory is viable.  When the trait is false, the call runs
    [std::make_unique] / [std::make_shared]; when it is true, the call runs
    the aligned path: the object is made by [AlignedNew], the handle
    carries [AlignedDeleter], and a failure of [AlignedNew] is passed on. *)
Theorem Make_dispatch T args :
  length (viable (MakeUnique_overloads T args)) = 1%nat ∧
  length (viable (MakeShared_overloads T args)) = 1%nat ∧
  (HasAlignment T = false →
     MakeUnique T args = Some (std_make_unique T args) ∧
     MakeShared T args = Some (std_make_shared T args)) ∧
  (HasAlignment T = true →
     ∃ mu ms,
       MakeUnique T args = Some mu ∧
       MakeShared T args = Some ms ∧
       ∀ s, mu s = aligned_path Unique T args s ∧
            ms s = aligned_path Shared T args s).
Proof.
  unfold MakeUnique, MakeShared, resolve, viable,
    MakeUnique_overloads, MakeShared_overloads. simpl.
  destruct (HasAlignment T); simpl; (do 3 (split; [done|])); [|done].
  intros _. exists (AlignedUnique T args).
  eexists. split; [reflexivity|]. split; [reflexivity|].
  intros s. split; [apply AlignedUnique_aligned_path|].
  unfold aligned_path. run_monad.
  by destruct (AlignedNew T args s) as [[p|e|] s'].
Qed.
End DispatchFacts.

(** ** IsAligned *)

Lemma IsAligned_nonzero p a :
  a ≠ 0 → IsAligned p a = Some (p mod a =? 0).
Proof.
  intros Ha. unfold IsAligned, urem.
  by destruct (Z.eqb_spec a 0).
Qed.

Lemma IsAligned_zero p : IsAligned p 0 = None.
Proof. reflexivity. Qed.

(** C6, as the code has it: for every address and every nonzero alignment,
    [IsAligned] is a function of its two arguments alone and answers [true]
    exactly when the address is a multiple of the alignment. *)
Theorem IsAligned_iff_multiple p a :
  a ≠ 0 →
  (IsAligned p a = Some true ↔ (a | p)) ∧
  (∃ b, IsAligned p a = Some b).
Proof.
  intros Ha. rewrite IsAligned_nonzero by done. split; [|eauto].
  rewrite <- (Z.mod_divide p a) by done.
  split.
  - intros [= Hb]. by apply Z.eqb_eq.
  - intros ->. reflexivity.
Qed.

(** C6 as stated fails at alignment zero: the null address is a multiple
    of zero, yet the remainder by zero has no value. *)
Lemma IsAligned_zero_alignment_not_iff :
  ¬ (IsAligned 0 0 = Some true ↔ (0 | 0)).
Proof.
  intros [_ Hback].
  specialize (Hback (Z.divide_0_r 0)). discriminate Hback.
Qed.

(** C10: [IsAligned] divides by its alignment argument; with alignment zero
    the remainder is undefined, for every alignment greater than zero the
    remainder is defined and the call yields a boolean. *)
Theorem IsAligned_defined_iff_nonzero p a :
  IsAligned p 0 = None ∧
  urem p 0 = None ∧
  (0 < a → urem p a = Some (p mod a) ∧
           IsAligned p a = Some (p mod a =? 0)).
Proof.
  split; [reflexivity|]. split; [reflexivity|].
  intros Ha. unfold IsAligned, urem.
  destruct (Z.eqb_spec a 0); [lia|done].
Qed.

(** ** The POSIX arm on allocation failure *)

Lemma arena_aligned_on_success (E : Env) :
  @os_alloc E = arena_alloc → aligned_on_success E.
Proof.
  intros HE L size al p. rewrite HE. unfold arena_alloc.
  destruct ((0 <? al) && (size <=? 1024)) eqn:Hc; [|done].
  intros [= <-]. rewrite Z.mul_comm. apply Z_mod_mult.
Qed.

(** On Windows the wrapper reports failure of the primitive as null. *)
Lemma AlignedMalloc_windows_null_on_failure {E : Env} {Args} (T : CType Args) A n s :
  target = Windows →
  os_alloc (live s) (wrap (sizeof T * n)) A = None →
  (AlignedMalloc T A n s).1 = Ok 0.
Proof.
  intros Ht Hos. by rewrite (AlignedMalloc_failure_windows _ _ _ _ Ht Hos).
Qed.

(** On Windows every non-null pointer the wrapper returns is aligned,
    provided the primitive aligns the blocks it hands out. *)
Lemma AlignedMalloc_windows_aligned {E : Env} {Args} (T : CType Args) A n s p s' :
  target = Windows →
  aligned_on_success E →
  A ≠ 0 →
  AlignedMalloc T A n s = (Ok p, s') →
  p ≠ 0 →
  IsAligned p A = Some true.
Proof.
  intros Ht Hal HA Hm Hp.
  destruct (os_alloc (live s) (wrap (sizeof T * n)) A) as [q|] eqn:Hos.
  - rewrite (AlignedMalloc_success _ _ _ _ _ Hos) in Hm.
    injection Hm as <- _.
    rewrite IsAligned_nonzero by done.
    by rewrite (Hal _ _ _ _ Hos).
  - rewrite (AlignedMalloc_failure_windows _ _ _ _ Ht Hos) in Hm.
    injection Hm as <- _. done.
Qed.

(** C1 at the failing input: on the POSIX arm, a request the allocator
    cannot serve makes [AlignedMalloc] return the indeterminate initial
    value of its local pointer, here a non-null address, without
    throwing. *)
Theorem AlignedMalloc_posix_failure_not_null :
  @os_alloc posix64 (live empty_state)
     (@wrap posix64 (sizeof Page * 1)) (alignof Page) = None ∧
  @AlignedMalloc posix64 Z Page (alignof Page) 1 empty_state =
    (Ok 3735928559, {| live := ∅; trace := [EvAlloc 4096 64 None] |}) ∧
  3735928559 ≠ 0.
Proof. split; [reflexivity|]. split; [reflexivity|lia]. Qed.

(** C9 at the failing input: the allocator aligns every block it hands out
    and 64 is a power of two not below [alignof(Page)], yet on the POSIX
    arm a failed request returns a non-null pointer that is not on a
    64-byte boundary. *)
Theorem AlignedMalloc_posix_failure_unaligned :
  aligned_on_success posix64 ∧
  64 = 2 ^ 6 ∧ alignof Page ≤ 64 ∧
  (@AlignedMalloc posix64 Z Page 64 1 empty_state).1 = Ok 3735928559 ∧
  3735928559 ≠ 0 ∧
  IsAligned 3735928559 64 = Some false.
Proof.
  split; [by apply arena_aligned_on_success|].
  split; [reflexivity|]. split; [simpl; lia|].
  split; [reflexivity|]. split; [lia|reflexivity].
Qed.

(** ** Concrete runs *)

Lemma AlignedMalloc_request_size_witness :
  trace (@AlignedMalloc win64 Z Block64 64 4 empty_state).2 =
    [EvAlloc 256 64 (Some 64)].
Proof.
  apply (proj2 (@AlignedMalloc_request_size win64 Z Block64 64 4 empty_state)).
  simpl. lia.
Defined.

Lemma AlignedNew_ctor_failure_frees_block_witness :
  @AlignedNew win64 Z Block64 7 empty_state =
    (Throw (user_exn 7),
     {| live := ∅;
        trace := [EvAlloc 64 64 (Some 64); EvCtor 64; EvFree 64] |}).
Proof.
  apply (@AlignedNew_ctor_failure_frees_block win64 Z Block64 7 empty_state
           64 (user_exn 7)).
  - reflexivity.
  - lia.
  - apply not_elem_of_empty.
  - reflexivity.
Defined.

Lemma AlignedNew_null_allocation_bad_alloc_witness :
  @AlignedNew win64 Z Page 0 empty_state =
    (Throw std_bad_alloc, {| live := ∅; trace := [EvAlloc 4096 64 None] |}) ∧
  64 ≠ 0.
Proof.
  pose proof (@AlignedNew_null_allocation_bad_alloc win64 Z) as Hnew.
  split.
  - apply (proj1 (Hnew Page 0 empty_state)). reflexivity.
  - apply (proj2 (Hnew Block64 0 empty_state) 64 one_block_state).
    reflexivity.
Defined.

Lemma AlignedFree_AlignedDelete_null_noop_witness :
  @AlignedDelete posix64 Z Block64 64 one_block_state =
    (Ok tt,
     {| live := live one_block_state ∖ {[64]};
        trace := trace one_block_state ++ [EvDtor 64; EvFree 64] |}).
Proof.
  apply (proj2 (proj2 (@AlignedFree_AlignedDelete_null_noop posix64 Z Block64
                         one_block_state)) 64).
  - lia.
  - simpl. apply elem_of_singleton. reflexivity.
Defined.

Lemma Make_dispatch_witness :
  (@MakeUnique win64 (plain_std win64) Z Word32 0 =
     Some (@plain_new win64 Z Unique Word32 0) ∧
   @MakeShared win64 (plain_std win64) Z Word32 0 =
     Some (@plain_new win64 Z Shared Word32 0)) ∧
  ∃ mu ms,
    @MakeUnique win64 (plain_std win64) Z Block64 0 = Some mu ∧
    @MakeShared win64 (plain_std win64) Z Block64 0 = Some ms ∧
    ∀ s, mu s = @aligned_path win64 Z Unique Block64 0 s ∧
         ms s = @aligned_path win64 Z Shared Block64 0 s.
Proof.
  pose proof (@Make_dispatch win64 (plain_std win64) Z) as Hd.
  split.
  - apply (proj1 (proj2 (proj2 (Hd Word32 0)))). reflexivity.
  - apply (proj2 (proj2 (proj2 (Hd Block64 0)))). reflexivity.
Defined.

Lemma IsAligned_iff_multiple_witness :
  (IsAligned 128 64 = Some true ↔ (64 | 128)) ∧
  (∃ b, IsAligned 128 64 = Some b).
Proof. apply (IsAligned_iff_multiple 128 64). lia. Defined.

Lemma IsAligned_defined_iff_nonzero_witness :
  urem 100 64 = Some (100 mod 64) ∧
  IsAligned 100 64 = Some (100 mod 64 =? 0).
Proof. apply (IsAligned_defined_iff_nonzero 100 64). lia. Defined.

(** * Further properties of the header *)

(** ** The arena honours the freshness contract *)

Lemma foldr_max_bound (l : list Z) :
  0 ≤ foldr Z.max 0 l ∧ ∀ x, x ∈ l → x ≤ foldr Z.max 0 l.
Proof.
  induction l as [|y l [IH0 IH]]; simpl.
  - split; [lia|]. intros x Hx. by apply elem_of_nil in Hx.
  - split; [lia|]. intros x [->|Hin]%elem_of_cons; [lia|].
    specialize (IH x Hin). lia.
Qed.

Lemma arena_fresh_on_success (E : Env) :
  @os_alloc E = arena_alloc → fresh_on_success E.
Proof.
  intros HE L size al p. rewrite HE. unfold arena_alloc.
  destruct (Z.ltb_spec 0 al) as [Hal|]; [|done].
  destruct (size <=? 1024); [|done]. simpl. intros [= <-].
  unfold set_fold. simpl.
  destruct (foldr_max_bound (elements L)) as [H0 Hmax].
  split; [nia|]. intros Hin%elem_of_elements%Hmax. nia.
Qed.

(** ** Runs of AlignedNew *)

Section RunFacts.
Context {E : Env} {Args : Type}.
Implicit Types (T : CType Args) (s : State).

(** What [AlignedNew] does once the allocator has handed out a non-null
    block. *)
Lemma AlignedNew_run T args s p :
  os_alloc (live s) (wrap (sizeof T * 1)) (alignof T) = Some p →
  p ≠ 0 →
  AlignedNew T args s =
    match ctor T args with
    | None =>
        (Ok p, {| live := {[p]} ∪ live s;
                  trace := trace s ++
                    [EvAlloc (wrap (sizeof T * 1)) (alignof T) (Some p);
                     EvCtor p] |})
    | Some e =>
        (Throw e, {| live := ({[p]} ∪ live s) ∖ {[p]};
                     trace := trace s ++
                       [EvAlloc (wrap (sizeof T * 1)) (alignof T) (Some p);
                        EvCtor p; EvFree p] |})
    end.
Proof.
  intros Hos Hp. unfold AlignedNew. run_monad.
  rewrite (AlignedMalloc_success _ _ _ _ _ Hos).
  destruct (Z.eqb_spec p 0) as [|_]; [done|].
  unfold placement_new. simpl.
  rewrite decide_True by (apply elem_of_union_l; by apply elem_of_singleton).
  destruct (ctor T args) as [e|]; unfold log; simpl.
  - rewrite AlignedFree_release.
    rewrite release_live
      by (done || (apply elem_of_union_l; by apply elem_of_singleton)).
    simpl. by rewrite <- !app_assoc.
  - by rewrite <- !app_assoc.
Qed.

Lemma AlignedNew_Ok_inv T args s p s' :
  AlignedNew T args s = (Ok p, s') →
  p ≠ 0 ∧ ∃ s1, AlignedMalloc T (alignof T) 1 s = (Ok p, s1).
Proof.
  unfold AlignedNew. run_monad.
  destruct (AlignedMalloc_returns T (alignof T) 1 s) as (q & s1 & ->).
  destruct (Z.eqb_spec q 0) as [|Hq]; [done|].
  destruct (placement_new T q args s1) as [[[]|e|] s2]; try done.
  - intros [= <- _]. eauto.
  - by destruct (AlignedFree q s2) as [[[]| |] s3].
Qed.

(** X1: when the allocator hands out a non-null block and the constructor
    completes, [AlignedNew] returns that block; afterwards the block is
    live and the constructor has run once on it, after the allocation. *)
Theorem AlignedNew_success T args s p :
  os_alloc (live s) (wrap (sizeof T * 1)) (alignof T) = Some p →
  p ≠ 0 →
  ctor T args = None →
  AlignedNew T args s =
    (Ok p, {| live := {[p]} ∪ live s;
              trace := trace s ++
                [EvAlloc (wrap (sizeof T * 1)) (alignof T) (Some p);
                 EvCtor p] |}).
Proof.
  intros Hos Hp Hctor. rewrite (AlignedNew_run _ _ _ _ Hos Hp).
  by rewrite Hctor.
Qed.

(** X2: constructing with [AlignedNew] and then destroying the result with
    [AlignedDelete] leaves the set of live blocks as it was; the events
    are allocation, constructor, destructor, release, in that order. *)
Theorem AlignedNew_AlignedDelete_roundtrip T args s p :
  os_alloc (live s) (wrap (sizeof T * 1)) (alignof T) = Some p →
  p ≠ 0 →
  p ∉ live s →
  ctor T args = None →
  (q ← AlignedNew T args; AlignedDelete T q) s =
    (Ok tt, {| live := live s;
               trace := trace s ++
                 [EvAlloc (wrap (sizeof T * 1)) (alignof T) (Some p);
                  EvCtor p; EvDtor p; EvFree p] |}).
Proof.
  intros Hos Hp Hfresh Hctor. run_monad.
  rewrite (AlignedNew_run _ _ _ _ Hos Hp), Hctor.
  unfold AlignedDelete. destruct (Z.eqb_spec p 0) as [|_]; [done|].
  run_monad. unfold destroy, log. simpl. rewrite AlignedFree_release.
  rewrite release_live
    by (done || (apply elem_of_union_l; by apply elem_of_singleton)).
  simpl. rewrite union_singleton_difference by done.
  by rewrite <- !app_assoc.
Qed.

(** X3: on Windows, with an allocator that hands out fresh blocks, passing
    whatever [AlignedMalloc] returned to [AlignedFree] is always defined,
    whether the allocation succeeded or not, and leaves the set of live
    blocks as it was. *)
Theorem AlignedMalloc_AlignedFree_windows T A n s :
  target = Windows →
  fresh_on_success E →
  ∃ s', (p ← AlignedMalloc T A n; AlignedFree p) s = (Ok tt, s') ∧
        live s' = live s.
Proof.
  intros Ht Hfresh. run_monad.
  destruct (os_alloc (live s) (wrap (sizeof T * n)) A) as [p|] eqn:Hos.
  - destruct (Hfresh _ _ _ _ Hos) as [Hp Hnew].
    rewrite (AlignedMalloc_success _ _ _ _ _ Hos), AlignedFree_release.
    rewrite release_live
      by (done || (apply elem_of_union_l; by apply elem_of_singleton)).
    eexists. split; [reflexivity|]. simpl.
    by apply union_singleton_difference.
  - rewrite (AlignedMalloc_failure_windows _ _ _ _ Ht Hos).
    rewrite AlignedFree_release, release_null. eauto.
Qed.

(** X4: with an allocator that hands out fresh blocks and an allocation
    failure that is reported as null (always so on Windows), [AlignedNew]
    never has undefined behaviour; if it returns, the result is a new
    non-null block, now live, and the constructor completed; if it throws,
    the set of live blocks is unchanged and the exception is either
    [std::bad_alloc] or the one the constructor threw. *)
Theorem AlignedNew_outcome T args s :
  fresh_on_success E →
  (target = Posix →
   is_Some (os_alloc (live s) (wrap (sizeof T * 1)) (alignof T))) →
  match AlignedNew T args s with
  | (Ok p, s') =>
      p ≠ 0 ∧ (p ∉ live s) ∧ live s' = {[p]} ∪ live s ∧ ctor T args = None
  | (Throw e, s') =>
      live s' = live s ∧ (e = std_bad_alloc ∨ ctor T args = Some e)
  | (Undefined, _) => False
  end.
Proof.
  intros Hfresh Hposix.
  destruct (os_alloc (live s) (wrap (sizeof T * 1)) (alignof T))
    as [p|] eqn:Hos.
  - destruct (Hfresh _ _ _ _ Hos) as [Hp Hnew].
    rewrite (AlignedNew_run _ _ _ _ Hos Hp).
    destruct (ctor T args) as [e|]; simpl.
    + split; [by apply union_singleton_difference|by right].
    + done.
  - destruct target eqn:Ht.
    + unfold AlignedNew. run_monad.
      rewrite (AlignedMalloc_failure_windows _ _ _ _ Ht Hos). simpl.
      split; [done|by left].
    + destruct (Hposix eq_refl) as [? [=]].
Qed.

(** X5: on the POSIX arm, when the allocation fails and the uninitialised
    pointer is neither null nor a live block, [AlignedNew] does not throw
    [std::bad_alloc]: it goes on to construct at that pointer, which is
    undefined. *)
Theorem AlignedNew_posix_failure_undefined T args s :
  target = Posix →
  os_alloc (live s) (wrap (sizeof T * 1)) (alignof T) = None →
  indeterminate ≠ 0 →
  indeterminate ∉ live s →
  AlignedNew T args s =
    (Undefined,
     log (EvAlloc (wrap (sizeof T * 1)) (alignof T) None) s).
Proof.
  intros Ht Hos Hnz Hdead. unfold AlignedNew. run_monad.
  rewrite (AlignedMalloc_failure_posix _ _ _ _ Ht Hos).
  destruct (Z.eqb_spec indeterminate 0) as [|_]; [done|].
  unfold placement_new, log. simpl. by rewrite decide_False.
Qed.
(** X6: a handle made by [AlignedUnique] or [AlignedShared] carries
    [AlignedDeleter]; running that deleter on the pointer the handle owns
    destroys the object and releases the block, so the set of live blocks
    is again what it was before the factory was called. *)
Theorem aligned_handle_deleter_roundtrip T args s p :
  os_alloc (live s) (wrap (sizeof T * 1)) (alignof T) = Some p →
  p ≠ 0 →
  p ∉ live s →
  ctor T args = None →
  let final :=
    {| live := live s;
       trace := trace s ++
         [EvAlloc (wrap (sizeof T * 1)) (alignof T) (Some p);
          EvCtor p; EvDtor p; EvFree p] |} in
  (h ← AlignedUnique T args; AlignedDeleter_call T (get h)) s = (Ok tt, final) ∧
  (h ← AlignedShared T args; AlignedDeleter_call T (get h)) s = (Ok tt, final) ∧
  (∀ h s', AlignedUnique T args s = (Ok h, s') ∨
           AlignedShared T args s = (Ok h, s') →
           get h = p ∧ deleter h = AlignedDeleter).
Proof.
  intros Hos Hp Hfresh Hctor final.
  assert (Hdel : AlignedDelete T p
            {| live := {[p]} ∪ live s;
               trace := trace s ++
                 [EvAlloc (wrap (sizeof T * 1)) (alignof T) (Some p);
                  EvCtor p] |} = (Ok tt, final)).
  { unfold AlignedDelete. destruct (Z.eqb_spec p 0) as [|_]; [done|].
    run_monad. unfold destroy, log. simpl. rewrite AlignedFree_release.
    rewrite release_live
      by (done || (apply elem_of_union_l; by apply elem_of_singleton)).
    simpl. rewrite union_singleton_difference by done.
    unfold final. by rewrite <- !app_assoc. }
  unfold AlignedUnique, AlignedShared, AlignedDeleter_call. run_monad.
  rewrite (AlignedNew_run _ _ _ _ Hos Hp), Hctor. simpl.
  split; [exact Hdel|]. split; [exact Hdel|].
  intros h s' [[= <- _]|[= <- _]]; done.
Qed.

(** X7: whatever its outcome, [AlignedNew] asks the platform allocator for
    memory exactly once, for [sizeof(Type)] bytes at [alignof(Type)]. *)
Theorem AlignedNew_single_request T args s :
  alloc_requests (trace (AlignedNew T args s).2) =
    alloc_requests (trace s) ++
      [EvAlloc (wrap (sizeof T * 1)) (alignof T)
         (os_alloc (live s) (wrap (sizeof T * 1)) (alignof T))].
Proof.
  pose proof (AlignedMalloc_trace T (alignof T) 1 s) as Htr.
  unfold AlignedNew. run_monad.
  destruct (AlignedMalloc_returns T (alignof T) 1 s) as (q & s1 & Hm).
  rewrite Hm in Htr |- *. simpl in Htr.
  assert (Hreq : alloc_requests (trace s1) =
            alloc_requests (trace s) ++
              [EvAlloc (wrap (sizeof T * 1)) (alignof T)
                 (os_alloc (live s) (wrap (sizeof T * 1)) (alignof T))]).
  { rewrite Htr. unfold alloc_requests. by rewrite List.filter_app. }
  assert (Hskip : ∀ ev, is_alloc ev = false →
            alloc_requests (trace s1 ++ [ev]) = alloc_requests (trace s1)).
  { intros ev Hev. unfold alloc_requests. rewrite List.filter_app. simpl.
    rewrite Hev. apply app_nil_r. }
  destruct (Z.eqb_spec q 0) as [|Hq]; [done|].
  unfold placement_new.
  destruct (decide (q ∈ live s1)) as [Hin|]; [|done].
  destruct (ctor T args) as [e|]; simpl.
  - rewrite AlignedFree_release. unfold release. simpl.
    destruct (Z.eqb_spec q 0) as [|_]; [done|].
    rewrite decide_True by done. simpl.
    unfold alloc_requests. rewrite <- app_assoc, List.filter_app. simpl.
    rewrite app_nil_r. exact Hreq.
  - rewrite Hskip by done. exact Hreq.
Qed.

(** X8: on Windows, with an allocator that aligns the blocks it hands out,
    every pointer [AlignedNew] returns lies on the natural alignment of the
    type. *)
Theorem AlignedNew_windows_aligned T args s p s' :
  target = Windows →
  aligned_on_success E →
  alignof T ≠ 0 →
  AlignedNew T args s = (Ok p, s') →
  IsAligned p (alignof T) = Some true.
Proof.
  intros Ht Hal HA Hnew.
  destruct (AlignedNew_Ok_inv _ _ _ _ _ Hnew) as (Hp & s1 & Hm).
  exact (AlignedMalloc_windows_aligned T _ _ _ _ _ Ht Hal HA Hm Hp).
Qed.

(** X9: the product [sizeof(Type) * n] is not checked for overflow: when it
    does not fit in [size_t], the platform allocator is asked for fewer
    bytes than [n] objects need, and [AlignedMalloc] returns normally. *)
Theorem AlignedMalloc_overflow_undersized T A n s :
  0 ≤ size_bits →
  2 ^ size_bits ≤ sizeof T * n →
  ∃ p s',
    AlignedMalloc T A n s = (Ok p, s') ∧
    trace s' =
      trace s ++ [EvAlloc (wrap (sizeof T * n)) A
                    (os_alloc (live s) (wrap (sizeof T * n)) A)] ∧
    0 ≤ wrap (sizeof T * n) < sizeof T * n.
Proof.
  intros Hbits Hbig.
  destruct (AlignedMalloc_returns T A n s) as (p & s' & Hm).
  pose proof (AlignedMalloc_trace T A n s) as Htr. rewrite Hm in Htr.
  exists p, s'. split; [exact Hm|]. split; [exact Htr|].
  unfold wrap.
  assert (0 < 2 ^ size_bits) by (by apply Z.pow_pos_nonneg).
  pose proof (Z.mod_pos_bound (sizeof T * n) (2 ^ size_bits)). lia.
Qed.
End RunFacts.

(** ** More on IsAligned *)

(** X10: a pointer aligned to [b] is aligned to every divisor of [b]; in
    particular 64-byte alignment gives 32-, 16- and 8-byte alignment. *)
Theorem IsAligned_divisor p a b :
  b ≠ 0 →
  (a | b) →
  IsAligned p b = Some true →
  IsAligned p a = Some true.
Proof.
  intros Hb Hab. assert (Ha : a ≠ 0).
  { intros ->. apply Z.divide_0_l in Hab. done. }
  rewrite !IsAligned_nonzero by done.
  intros [= Hpb%Z.eqb_eq]. f_equal. apply Z.eqb_eq.
  apply Z.mod_divide; [done|].
  apply Z.mod_divide in Hpb; [|done].
  by etrans.
Qed.

(** X11: moving a pointer by a whole number of alignment units does not
    change the answer of [IsAligned], whatever the alignment. *)
Theorem IsAligned_add_multiple p k a :
  IsAligned (p + k * a) a = IsAligned p a.
Proof.
  unfold IsAligned, urem. destruct (a =? 0); [done|].
  by rewrite Z_mod_plus_full.
Qed.

(** ** Concrete runs of the further properties *)

Lemma AlignedNew_success_witness :
  @AlignedNew win64 Z Block64 0 empty_state =
    (Ok 64, {| live := {[64]} ∪ live empty_state;
               trace := trace empty_state ++
                 [EvAlloc (@wrap win64 (sizeof Block64 * 1))
                    (alignof Block64) (Some 64); EvCtor 64] |}).
Proof.
  apply (@AlignedNew_success win64 Z Block64 0 empty_state 64).
  - reflexivity.
  - lia.
  - reflexivity.
Defined.

Lemma AlignedNew_AlignedDelete_roundtrip_witness :
  (q ← @AlignedNew posix64 Z Block64 0; @AlignedDelete posix64 Z Block64 q)
    empty_state =
    (Ok tt, {| live := live empty_state;
               trace := trace empty_state ++
                 [EvAlloc (@wrap posix64 (sizeof Block64 * 1))
                    (alignof Block64) (Some 64);
                  EvCtor 64; EvDtor 64; EvFree 64] |}).
Proof.
  apply (@AlignedNew_AlignedDelete_roundtrip posix64 Z Block64 0
           empty_state 64).
  - reflexivity.
  - lia.
  - apply not_elem_of_empty.
  - reflexivity.
Defined.

Lemma AlignedMalloc_AlignedFree_windows_witness :
  ∃ s', (p ← @AlignedMalloc win64 Z Page 64 1; @AlignedFree win64 p)
          empty_state = (Ok tt, s') ∧
        live s' = live empty_state.
Proof.
  apply (@AlignedMalloc_AlignedFree_windows win64 Z Page 64 1 empty_state).
  - reflexivity.
  - apply arena_fresh_on_success. reflexivity.
Defined.

Lemma AlignedNew_outcome_witness :
  live (@AlignedNew win64 Z Block64 7 empty_state).2 = live empty_state ∧
  (user_exn 7 = std_bad_alloc ∨ ctor Block64 7 = Some (user_exn 7)).
Proof.
  assert (Hfresh : fresh_on_success win64)
    by (apply arena_fresh_on_success; reflexivity).
  assert (Hposix : @target win64 = Posix →
            is_Some (@os_alloc win64 (live empty_state)
                       (@wrap win64 (sizeof Block64 * 1)) (alignof Block64)))
    by discriminate.
  exact (@AlignedNew_outcome win64 Z Block64 7 empty_state Hfresh Hposix).
Defined.

Lemma AlignedNew_posix_failure_undefined_witness :
  @AlignedNew posix64 Z Page 0 empty_state =
    (Undefined,
     log (EvAlloc (@wrap posix64 (sizeof Page * 1)) (alignof Page) None)
       empty_state).
Proof.
  apply (@AlignedNew_posix_failure_undefined posix64 Z Page 0 empty_state).
  - reflexivity.
  - reflexivity.
  - simpl. lia.
  - apply not_elem_of_empty.
Defined.

Lemma aligned_handle_deleter_roundtrip_witness :
  (h ← @AlignedUnique win64 Z Block64 0;
   @AlignedDeleter_call win64 Z Block64 (get h)) empty_state =
    (Ok tt, {| live := live empty_state;
               trace := trace empty_state ++
                 [EvAlloc (@wrap win64 (sizeof Block64 * 1))
                    (alignof Block64) (Some 64);
                  EvCtor 64; EvDtor 64; EvFree 64] |}).
Proof.
  apply (@aligned_handle_deleter_roundtrip win64 Z Block64 0 empty_state 64).
  - reflexivity.
  - lia.
  - apply not_elem_of_empty.
  - reflexivity.
Defined.

Lemma AlignedNew_windows_aligned_witness :
  IsAligned 64 (alignof Block64) = Some true.
Proof.
  apply (@AlignedNew_windows_aligned win64 Z Block64 0 empty_state 64
           one_block_state).
  - reflexivity.
  - apply arena_aligned_on_success. reflexivity.
  - simpl. lia.
  - reflexivity.
Defined.

Lemma AlignedMalloc_overflow_undersized_witness :
  ∃ p s',
    @AlignedMalloc win64 Z Page 64 (2 ^ 52) empty_state = (Ok p, s') ∧
    trace s' =
      trace empty_state ++
        [EvAlloc (@wrap win64 (sizeof Page * 2 ^ 52)) 64
           (@os_alloc win64 (live empty_state)
              (@wrap win64 (sizeof Page * 2 ^ 52)) 64)] ∧
    0 ≤ @wrap win64 (sizeof Page * 2 ^ 52) < sizeof Page * 2 ^ 52.
Proof.
  apply (@AlignedMalloc_overflow_undersized win64 Z Page 64 (2 ^ 52)
           empty_state).
  - simpl. lia.
  - simpl. lia.
Defined.

Lemma IsAligned_divisor_witness :
  IsAligned 128 16 = Some true.
Proof.
  apply (IsAligned_divisor 128 16 64).
  - lia.
  - exists 4. reflexivity.
  - reflexivity.
Defined.
